(** * Signature verification cache with xorshift-driven eviction

    A shallow embedding of [txscript/sigcache_xor_eviction.go]: the
    [SigCacheXor] structure, its constructor [NewSigCacheXor], the
    membership test [Exists] and the mutating [Add] with its eviction
    scan, followed by the properties of the cache that the specification
    states; and of [ServiceFlag.String] of [protocol.go]. *)

From Stdlib Require Import ZArith Lia.
From Stdlib Require HexString.
From stdpp Require Import gmap list fin_maps strings.

Local Open Scope Z_scope.

(** ** Machine integers

    Go's [uint] and [int] are 64 bits wide on the platforms the node runs
    on.  Values are carried as [Z]; the two conversions below are the
    wrap-arounds of the language. *)

Definition max_uint : Z := 2 ^ 64 - 1.

(** [uint(x)]: reduction modulo 2^64. *)
Definition to_uint (x : Z) : Z := x mod 2 ^ 64.

(** The value an [int] expression takes after two's-complement wrap. *)
Definition to_int (x : Z) : Z := (x + 2 ^ 63) mod 2 ^ 64 - 2 ^ 63.

(** ** Bytes and hashes

    A byte is a [Z] in [0, 256); [wire.ShaHash] is an array of
    [HashSize] = 32 bytes, carried as a list. *)

Definition HashSize : nat := 32.

Abbreviation ShaHash := (list Z).

Definition is_byte (b : Z) : Prop := 0 <= b < 256.

Definition wf_hash (h : ShaHash) : Prop :=
  length h = HashSize /\ Forall is_byte h.

(** The zero value of [wire.ShaHash]. *)
Definition zeroEntry : ShaHash := replicate HashSize 0.

(** [bytes.Compare]: lexicographic comparison, result -1, 0 or 1; a proper
    prefix is smaller. *)
Fixpoint bytes_Compare (a b : list Z) : Z :=
  match a, b with
  | [], [] => 0
  | [], _ :: _ => -1
  | _ :: _, [] => 1
  | x :: a', y :: b' =>
      if x <? y then -1
      else if y <? x then 1
      else bytes_Compare a' b'
  end.

(** [binary.BigEndian.PutUint64]: the eight bytes of [v], most significant
    first. *)
Definition PutUint64 (v : Z) : list Z :=
  map (fun k => Z.land (Z.shiftr v k) 255) [56; 48; 40; 32; 24; 16; 8; 0].

(** [binary.BigEndian.Uint64] on the first eight bytes of [b]. *)
Definition Uint64 (b : list Z) : Z :=
  Z.lor (nth 7 b 0)
    (Z.lor (Z.shiftl (nth 6 b 0) 8)
       (Z.lor (Z.shiftl (nth 5 b 0) 16)
          (Z.lor (Z.shiftl (nth 4 b 0) 24)
             (Z.lor (Z.shiftl (nth 3 b 0) 32)
                (Z.lor (Z.shiftl (nth 2 b 0) 40)
                   (Z.lor (Z.shiftl (nth 1 b 0) 48)
                      (Z.shiftl (nth 0 b 0) 56))))))).

(** ** External capabilities

    [xorshift.XorShift] is an interface with the single method [Next],
    which returns 64 bits and moves the generator on.  Signatures and
    public keys are used through their [Equals] method only. *)

Class XorShift (G : Type) := Next : G -> Z * G.

Class Equals (A : Type) := equals : A -> A -> bool.

(** What [crypto/rand.Read] hands back for a request: the buffer contents,
    the number of bytes read and the error, if any. *)
Record ReadResult (E : Type) := mkRead {
  rr_buf : list Z;
  rr_n : nat;
  rr_err : option E
}.
Arguments mkRead {E} _ _ _.
Arguments rr_buf {E} _.
Arguments rr_n {E} _.
Arguments rr_err {E} _.

(** The documented contract of [crypto/rand.Read] on a buffer of [len]
    bytes: the count equals [len] exactly when no error is returned. *)
Definition read_contract {E} (len : nat) (r : ReadResult E) : Prop :=
  rr_n r = len <-> rr_err r = None.

Section SigCache.

Context {G : Type} `{XorShift G}.
Context {Signature PublicKey : Type}.
Context `{Equals Signature} `{Equals PublicKey}.
Context {E : Type}.
Variable NewXorShift128Plus : Z -> G.

(** ** Data model *)

Record sigCacheEntry := mkEntry {
  sig : Signature;
  pubKey : PublicKey
}.

Record SigCacheXor := mkCache {
  validSigs : gmap (list Z) sigCacheEntry;
  maxEntries : Z;
  xorShift : G
}.

(** [len(m)] of a Go map, an [int]. *)
Definition len (m : gmap (list Z) sigCacheEntry) : Z := Z.of_nat (size m).

(** ** Construction *)

Definition NewSigCacheXor (maxEntries : Z) (rand_Read : nat -> ReadResult E)
  : SigCacheXor + E :=
  let r := rand_Read 8%nat in
  match rr_err r with
  | Some err => inr err
  | None =>
      let randSeed := Uint64 (rr_buf r) in
      inl {| validSigs := ∅;
             maxEntries := maxEntries;
             xorShift := NewXorShift128Plus randSeed |}
  end.

(** ** Membership test

    The method reads the receiver only; the state it leaves is returned
    next to the answer. *)

Definition Exists (s : SigCacheXor) (sigHash : ShaHash)
    (sig0 : Signature) (pubKey0 : PublicKey) : bool * SigCacheXor :=
  match validSigs s !! sigHash with
  | Some entry => (equals (pubKey entry) pubKey0 && equals (sig entry) sig0, s)
  | None => (false, s)
  end.

(** ** Eviction *)

(** [n] successive draws, each written big-endian into the next eight
    bytes of the buffer. *)
Fixpoint draws (n : nat) (g : G) : list Z * G :=
  match n with
  | O => ([], g)
  | S n' =>
      let '(randInt, g1) := Next g in
      let '(rest, g2) := draws n' g1 in
      (PutUint64 randInt ++ rest, g2)
  end.

(** The random hash of an eviction: [HashSize] bytes from four draws. *)
Definition randHash (g : G) : list Z * G := draws 4 g.

(** The loop over the keys of the map, visited in the order [keys]:
    [foundEntry] is overwritten while it still equals [zeroEntry], and the
    first key above [randHashBytes] ends the loop. *)
Fixpoint scan (randHashBytes : list Z) (keys : list (list Z))
    (foundEntry : list Z) : list Z :=
  match keys with
  | [] => foundEntry
  | sigEntry :: rest =>
      let foundEntry :=
        if bool_decide (foundEntry = zeroEntry) then sigEntry else foundEntry in
      if bytes_Compare sigEntry randHashBytes >? 0 then sigEntry
      else scan randHashBytes rest foundEntry
  end.

(** Go leaves the order of a [range] over a map unspecified: any
    enumeration of the keys, each once, may be the one taken. *)
Definition range_order (m : gmap (list Z) sigCacheEntry)
    (keys : list (list Z)) : Prop :=
  keys ≡ₚ (map_to_list m).*1.

(** The body of the eviction branch of [Add]: draw the random hash, scan
    the keys in the order [keys], delete the key found. *)
Definition evict (keys : list (list Z)) (s : SigCacheXor) : SigCacheXor :=
  let '(randHashBytes, g) := randHash (xorShift s) in
  let foundEntry := scan randHashBytes keys zeroEntry in
  {| validSigs := delete foundEntry (validSigs s);
     maxEntries := maxEntries s;
     xorShift := g |}.

(** The condition [uint(len(s.validSigs)+1) > s.maxEntries]. *)
Definition over_max (s : SigCacheXor) : bool :=
  to_uint (to_int (len (validSigs s) + 1)) >? maxEntries s.

(** ** Insertion

    [keys] is the order in which the [range] statement visits the map,
    should the eviction branch run. *)
Definition Add (keys : list (list Z)) (s : SigCacheXor) (sigHash : ShaHash)
    (sig0 : Signature) (pubKey0 : PublicKey) : SigCacheXor :=
  if maxEntries s <=? 0 then s
  else
    let s1 := if over_max s then evict keys s else s in
    {| validSigs := <[sigHash := mkEntry sig0 pubKey0]> (validSigs s1);
       maxEntries := maxEntries s1;
       xorShift := xorShift s1 |}.

(** The generator after [n] calls of [Next]. *)
Definition advance (n : nat) (g : G) : G := Nat.iter n (fun g' => (Next g').2) g.

(** The key the eviction branch deletes. *)
Definition victim (keys : list (list Z)) (s : SigCacheXor) : list Z :=
  scan (randHash (xorShift s)).1 keys zeroEntry.

(** The victim in the words of the specification: the first key visited
    that is above the random hash, and failing that the first key
    visited. *)
Definition spec_victim (randHashBytes : list Z) (keys : list (list Z))
  : option (list Z) :=
  match find (fun k => bytes_Compare k randHashBytes >? 0) keys with
  | Some k => Some k
  | None => head keys
  end.

(** [Add] takes its eviction branch. *)
Definition evicts (s : SigCacheXor) : bool :=
  negb (maxEntries s <=? 0) && over_max s.

(** A call of [Add] with the order its [range] takes. *)
Record AddCall := mkCall {
  ac_keys : list (list Z);
  ac_hash : list Z;
  ac_sig : Signature;
  ac_pub : PublicKey
}.

Definition AddOne (s : SigCacheXor) (a : AddCall) : SigCacheXor :=
  Add (ac_keys a) s (ac_hash a) (ac_sig a) (ac_pub a).

(** A sequence of calls, run from left to right. *)
Definition AddAll (calls : list AddCall) (s : SigCacheXor) : SigCacheXor :=
  foldl AddOne s calls.

(** Every call of the sequence ranges over the map it meets. *)
Fixpoint ranges_ok (calls : list AddCall) (s : SigCacheXor) : Prop :=
  match calls with
  | [] => True
  | a :: rest => range_order (validSigs s) (ac_keys a) /\ ranges_ok rest (AddOne s a)
  end.

End SigCache.

(** ** Stand-ins for the external capabilities

    A counting generator (the state is the next output) and integers
    compared by value for signatures and keys; they serve to run the cache
    on concrete inputs. *)

Definition counter_Next (g : Z) : Z * Z := (to_uint g, g + 1).

#[export] Instance counter_XorShift : XorShift Z := counter_Next.

#[export] Instance Z_Equals : Equals Z := Z.eqb.

(** ** Concrete caches

    Hashes, readers and cache states on which the definitions are run. *)

Definition hA : list Z := 1 :: replicate 31 0.
Definition hB : list Z := 2 :: replicate 31 0.
Definition hC : list Z := 3 :: replicate 31 0.

(** The hash 0x00..01. *)
Definition hOne : list Z := replicate 31 0 ++ [1].

(** A reader that fills the buffer with the byte [b]. *)
Definition rd_fill (b : Z) (n : nat) : ReadResult unit :=
  mkRead (replicate n b) n None.

(** A reader that stops after three bytes. *)
Definition rd_short (n : nat) : ReadResult unit :=
  mkRead (replicate 3 7 ++ replicate (n - 3) 0) 3 (Some tt).

(** The counting generator takes its seed as its first output. *)
Definition counter_New (seed : Z) : Z := seed.

Abbreviation TCache := (@SigCacheXor Z Z Z).
Abbreviation TCall := (@AddCall Z Z).

Definition fresh (C : Z) (g : Z) : TCache :=
  {| validSigs := ∅; maxEntries := C; xorShift := g |}.

(** Capacity 2, [hB] then [hA] inserted, generator at 0. *)
Definition calls_BA : list TCall := [mkCall [] hB 2 2; mkCall [hB] hA 1 1].
Definition s_BA : TCache := AddAll calls_BA (fresh 2 0).

(** Capacity 2 and one entry. *)
Definition s_A : TCache := AddAll [mkCall [] hA 1 1] (fresh 2 0).

(** Capacity 2, the zero hash and 0x00..01 inserted, generator at its
    largest output. *)
Definition calls_zero : list TCall :=
  [mkCall [] zeroEntry 1 1; mkCall [zeroEntry] hOne 2 2].
Definition s_zero : TCache := AddAll calls_zero (fresh 2 max_uint).

(** Capacity 1 and one entry. *)
Definition s_one : TCache := AddAll [mkCall [] hA 1 1] (fresh 1 0).

(** Capacity 2, 0x00..01 then [hA] inserted, generator at 0: of the two
    keys only [hA] is above the random hash of the next eviction. *)
Definition calls_1A : list TCall := [mkCall [] hOne 1 1; mkCall [hOne] hA 2 2].
Definition s_1A : TCache := AddAll calls_1A (fresh 2 0).

(** ** Service flags

    [protocol.go]: a [ServiceFlag] is a [uint64] bit set, printed by
    [String] with the help of the name table [sfStrings]. *)

(** [SFNodeNetwork = 1 << iota], the first constant of its block. *)
Definition SFNodeNetwork : Z := Z.shiftl 1 0.

(** The table of names, a Go map with one entry. *)
Definition sfStrings : list (Z * string) :=
  [(SFNodeNetwork, "SFNodeNetwork")].

(** Membership of a character in a cutset. *)
Definition in_cutset (c : Ascii.ascii) (cutset : string) : bool :=
  existsb (Ascii.eqb c) (String.list_ascii_of_string cutset).

(** [strings.TrimLeft]: drop the leading characters that are in the
    cutset. *)
Fixpoint TrimLeft (s cutset : string) : string :=
  match s with
  | EmptyString => EmptyString
  | String c s' => if in_cutset c cutset then TrimLeft s' cutset else s
  end.

(** [strings.TrimRight]: drop the trailing characters that are in the
    cutset. *)
Fixpoint TrimRight (s cutset : string) : string :=
  match s with
  | EmptyString => EmptyString
  | String c s' =>
      match TrimRight s' cutset with
      | EmptyString =>
          if in_cutset c cutset then EmptyString else String c EmptyString
      | t => String c t
      end
  end.

(** [strconv.FormatUint(x, 16)]: lower-case hexadecimal digits without
    leading zeros, "0" for zero. *)
Definition FormatUint16 (x : Z) : string :=
  match x with
  | Zpos p => HexString.Raw.of_pos p ""
  | _ => "0"
  end.

(** The loop of [String] over the name table, visited in the order
    [entries]: a flag whose bits are all set in [f] appends its name and a
    bar to [s] and is taken out of [f]. *)
Fixpoint flag_loop (entries : list (Z * string)) (f : Z) (s : string)
  : Z * string :=
  match entries with
  | [] => (f, s)
  | (flag, name) :: rest =>
      if Z.land f flag =? flag
      then flag_loop rest (to_uint (f - flag)) (s +:+ (name +:+ "|"))
      else flag_loop rest f s
  end.

(** [ServiceFlag.String]. *)
Definition ServiceFlag_String (entries : list (Z * string)) (f : Z) : string :=
  if f =? 0 then "0x0"
  else
    let '(f, s) := flag_loop entries f "" in
    let s := TrimRight s "|" in
    let s := if negb (f =? 0) then s +:+ ("|0x" +:+ FormatUint16 f) else s in
    TrimLeft s "|".

(** * Properties *)

(** ** Integer conversions *)

Lemma to_uint_to_int (x : Z) : to_uint (to_int x) = x mod 2 ^ 64.
Proof.
  unfold to_uint, to_int.
  rewrite Zminus_mod, Zmod_mod, <- Zminus_mod.
  f_equal. lia.
Qed.

Lemma to_uint_small (x : Z) : 0 <= x <= max_uint -> x mod 2 ^ 64 = x.
Proof. unfold max_uint. intros. apply Z.mod_small. lia. Qed.

(** ** Byte comparison *)

Lemma bytes_Compare_refl (a : list Z) : bytes_Compare a a = 0.
Proof.
  induction a as [|x a IH]; simpl; [reflexivity|].
  rewrite Z.ltb_irrefl. exact IH.
Qed.

Lemma bytes_Compare_zero_le (n : nat) (b : list Z) :
  Forall is_byte b -> length b = n ->
  (bytes_Compare (replicate n 0) b >? 0) = false.
Proof.
  revert b. induction n as [|n IH]; intros [|y b] Hb Hl; simpl in *;
    try discriminate; try reflexivity.
  inversion Hb as [|? ? Hy Hb']; subst.
  destruct (0 <? y) eqn:E0; [reflexivity|].
  destruct (y <? 0) eqn:E1.
  - apply Z.ltb_lt in E1. unfold is_byte in Hy. lia.
  - apply IH; [assumption | lia].
Qed.

Section Properties.

Context {G : Type} `{XorShift G}.
Context {Signature PublicKey : Type}.
Context `{Equals Signature} `{Equals PublicKey}.

Implicit Types s : @SigCacheXor G Signature PublicKey.
Implicit Types m : gmap (list Z) (@sigCacheEntry Signature PublicKey).
Implicit Types keys : list (list Z).

(** ** The order of a range *)

Lemma range_order_elem m keys k :
  range_order m keys -> (k ∈ keys <-> is_Some (m !! k)).
Proof.
  unfold range_order. intros Hp. rewrite Hp, list_elem_of_fmap. split.
  - intros [[k' e] [-> Hin]]. apply elem_of_map_to_list in Hin. simpl. eauto.
  - intros [e He]. exists (k, e). split; [reflexivity|].
    by apply elem_of_map_to_list.
Qed.

Lemma range_order_length m keys :
  range_order m keys -> length keys = size m.
Proof.
  unfold range_order. intros Hp.
  by rewrite Hp, length_fmap, length_map_to_list.
Qed.

Lemma range_order_NoDup m keys : range_order m keys -> NoDup keys.
Proof.
  unfold range_order. intros Hp. rewrite Hp. apply NoDup_fst_map_to_list.
Qed.

Lemma range_order_exists m : range_order m (map_to_list m).*1.
Proof. unfold range_order. reflexivity. Qed.

(** ** The scan *)

Lemma scan_elem_or_init (R : list Z) keys (f : list Z) :
  scan R keys f ∈ keys \/ scan R keys f = f.
Proof.
  revert f. induction keys as [|k rest IH]; intros f; cbn [scan]; [by right|].
  destruct (bytes_Compare k R >? 0); [left; apply list_elem_of_here|].
  destruct (IH (if bool_decide (f = zeroEntry) then k else f)) as [Hin | Heq].
  - left. by apply list_elem_of_further.
  - rewrite Heq. case_bool_decide; [left; apply list_elem_of_here | by right].
Qed.

Lemma scan_elem (R : list Z) keys :
  keys <> [] -> scan R keys zeroEntry ∈ keys.
Proof.
  destruct keys as [|k rest]; [done|]. intros _. cbn [scan].
  rewrite bool_decide_eq_true_2 by reflexivity.
  destruct (bytes_Compare k R >? 0); [apply list_elem_of_here|].
  destruct (scan_elem_or_init R rest k) as [Hin | ->].
  - by apply list_elem_of_further.
  - apply list_elem_of_here.
Qed.

(** A key above the random hash, with none before it in the visiting
    order, is the one the scan returns, whatever [foundEntry] held. *)
Lemma scan_first_above (R : list Z) (pre : list (list Z)) (k : list Z)
    (post : list (list Z)) (f : list Z) :
  Forall (fun k' => (bytes_Compare k' R >? 0) = false) pre ->
  (bytes_Compare k R >? 0) = true ->
  scan R (pre ++ k :: post) f = k.
Proof.
  intros Hpre Hk. revert f.
  induction Hpre as [|k' pre Hk' _ IH]; intros f; cbn [scan app].
  - by rewrite Hk.
  - rewrite Hk'. apply IH.
Qed.

(** With no key above the random hash the scan returns the first key
    whenever that key is not the zero hash. *)
Lemma scan_fallback_first (R : list Z) (k : list Z) (rest : list (list Z)) :
  Forall (fun k' => (bytes_Compare k' R >? 0) = false) (k :: rest) ->
  k <> zeroEntry ->
  scan R (k :: rest) zeroEntry = k.
Proof.
  intros Hall Hk. inversion Hall as [|? ? Hk0 Hrest]; subst. cbn [scan].
  rewrite bool_decide_eq_true_2 by reflexivity. rewrite Hk0.
  clear Hall Hk0.
  induction Hrest as [|k' rest Hk' _ IH]; cbn [scan]; [reflexivity|].
  rewrite Hk'. by rewrite bool_decide_eq_false_2.
Qed.

Lemma find_none_Forall (R : list Z) keys :
  find (fun k => bytes_Compare k R >? 0) keys = None ->
  Forall (fun k' => (bytes_Compare k' R >? 0) = false) keys.
Proof.
  induction keys as [|k rest IH]; cbn [find]; intros Hf; [constructor|].
  destruct (bytes_Compare k R >? 0) eqn:Hk; [discriminate|].
  constructor; [assumption | by apply IH].
Qed.

Lemma scan_find_some (R : list Z) keys (k f : list Z) :
  find (fun k' => bytes_Compare k' R >? 0) keys = Some k ->
  scan R keys f = k.
Proof.
  revert f. induction keys as [|k' rest IH]; cbn [find scan]; intros f Hf;
    [discriminate|].
  destruct (bytes_Compare k' R >? 0); [congruence | by apply IH].
Qed.

(** The scan agrees with the specification's victim as soon as the first
    key visited is not the zero hash. *)
Lemma scan_spec_victim (R : list Z) (k : list Z) (rest : list (list Z)) :
  k <> zeroEntry ->
  spec_victim R (k :: rest) = Some (scan R (k :: rest) zeroEntry).
Proof.
  intros Hk. unfold spec_victim.
  destruct (find _ (k :: rest)) as [k'|] eqn:Hf.
  - by rewrite (scan_find_some R (k :: rest) k' zeroEntry Hf).
  - apply find_none_Forall in Hf. by rewrite scan_fallback_first.
Qed.

(** When the zero hash is visited first and no key is above the random
    hash, the key found is the second one visited. *)
Lemma scan_after_zero (R : list Z) (k : list Z) (rest : list (list Z)) :
  Forall (fun k' => (bytes_Compare k' R >? 0) = false) (zeroEntry :: k :: rest) ->
  k <> zeroEntry ->
  scan R (zeroEntry :: k :: rest) zeroEntry = k.
Proof.
  intros Hall Hk. inversion Hall as [|? ? Hz Hrest]; subst.
  change (scan R (zeroEntry :: k :: rest) zeroEntry) with
    (let foundEntry :=
       if bool_decide (zeroEntry = zeroEntry) then zeroEntry else zeroEntry in
     if bytes_Compare zeroEntry R >? 0 then zeroEntry
     else scan R (k :: rest) foundEntry).
  cbn zeta. rewrite Hz, bool_decide_eq_true_2 by reflexivity.
  by apply scan_fallback_first.
Qed.

(** ** The generator *)

Lemma advance_S (n : nat) (g : G) : advance (S n) g = advance n (Next g).2.
Proof. exact (Nat.iter_succ_r n (fun g' => (Next g').2) g). Qed.

Lemma draws_state (n : nat) (g : G) : (draws n g).2 = advance n g.
Proof.
  revert g. induction n as [|n IH]; intros g; [reflexivity|].
  rewrite advance_S, <- IH. cbn [draws].
  destruct (Next g) as [r g1]. cbn [snd]. by destruct (draws n g1).
Qed.

Lemma randHash_state (g : G) : (randHash g).2 = advance 4 g.
Proof. apply draws_state. Qed.

Lemma PutUint64_wf (v : Z) : length (PutUint64 v) = 8%nat /\ Forall is_byte (PutUint64 v).
Proof.
  split; [reflexivity|]. unfold PutUint64.
  apply Forall_forall. intros b Hb. apply list_elem_of_fmap in Hb as (k & -> & _).
  unfold is_byte. change 255 with (Z.ones 8). rewrite Z.land_ones by lia.
  apply Z.mod_pos_bound. lia.
Qed.

Lemma draws_wf (n : nat) (g : G) :
  length (draws n g).1 = (8 * n)%nat /\ Forall is_byte (draws n g).1.
Proof.
  revert g. induction n as [|n IH]; intros g; [by split|].
  cbn [draws]. destruct (Next g) as [r g1].
  specialize (IH g1). destruct (draws n g1) as [rest g2].
  cbn [fst] in *. destruct IH as [Hl Hb].
  destruct (PutUint64_wf r) as [Hl8 Hb8].
  split; [rewrite length_app; lia | by apply Forall_app].
Qed.

(** The random hash has the shape of a [wire.ShaHash]. *)
Lemma randHash_wf (g : G) : wf_hash (randHash g).1.
Proof. apply (draws_wf 4 g). Qed.

(** The zero hash is never above the random hash: it can only be deleted
    as the fallback. *)
Lemma zero_not_above (g : G) :
  (bytes_Compare zeroEntry (randHash g).1 >? 0) = false.
Proof.
  destruct (randHash_wf g) as [Hl Hb].
  by apply bytes_Compare_zero_le.
Qed.

(** ** The eviction branch *)

Lemma evict_validSigs keys s :
  validSigs (evict keys s) = delete (victim keys s) (validSigs s).
Proof. unfold evict, victim. by destruct (randHash (xorShift s)). Qed.

Lemma evict_maxEntries keys s : maxEntries (evict keys s) = maxEntries s.
Proof. unfold evict. by destruct (randHash (xorShift s)). Qed.

Lemma evict_xorShift keys s : xorShift (evict keys s) = advance 4 (xorShift s).
Proof.
  rewrite <- randHash_state. unfold evict. by destruct (randHash (xorShift s)).
Qed.

Lemma victim_present keys s :
  validSigs s <> ∅ -> range_order (validSigs s) keys ->
  is_Some (validSigs s !! victim keys s).
Proof.
  intros Hne Hr. apply (range_order_elem _ keys); [assumption|].
  apply scan_elem. intros ->.
  apply range_order_length in Hr. simpl in Hr.
  symmetry in Hr. by apply map_size_empty_iff in Hr.
Qed.

Lemma evict_len keys s :
  validSigs s <> ∅ -> range_order (validSigs s) keys ->
  len (validSigs (evict keys s)) = len (validSigs s) - 1.
Proof.
  intros Hne Hr. rewrite evict_validSigs. unfold len.
  rewrite map_size_delete_Some by by apply victim_present.
  apply map_size_non_empty_iff in Hne. lia.
Qed.

(** ** The capacity test *)

Lemma len_nonneg m : 0 <= len m.
Proof. unfold len. lia. Qed.

Lemma over_max_spec s :
  len (validSigs s) < max_uint ->
  over_max s = (len (validSigs s) + 1 >? maxEntries s).
Proof.
  intros Hlt. unfold over_max. rewrite to_uint_to_int.
  rewrite to_uint_small; [reflexivity|].
  pose proof (len_nonneg (validSigs s)). lia.
Qed.

Lemma over_max_nonempty s :
  0 < maxEntries s -> over_max s = true -> validSigs s <> ∅.
Proof.
  intros Hpos Hov Hemp. unfold over_max in Hov.
  rewrite to_uint_to_int, Hemp in Hov. unfold len in Hov.
  rewrite map_size_empty in Hov. change ((Z.of_nat 0 + 1) mod 2 ^ 64) with 1 in Hov.
  lia.
Qed.

(** ** Insertion, step by step *)

Lemma Add_off keys s h sg pk :
  maxEntries s <= 0 -> Add keys s h sg pk = s.
Proof. intros Hle. unfold Add. by rewrite (proj2 (Z.leb_le _ _) Hle). Qed.

Lemma Add_on keys s h sg pk :
  0 < maxEntries s ->
  Add keys s h sg pk =
    let s1 := if over_max s then evict keys s else s in
    {| validSigs := <[h := mkEntry sg pk]> (validSigs s1);
       maxEntries := maxEntries s1;
       xorShift := xorShift s1 |}.
Proof. intros Hpos. unfold Add. by rewrite (proj2 (Z.leb_gt _ _) Hpos). Qed.

Lemma Add_maxEntries keys s h sg pk :
  maxEntries (Add keys s h sg pk) = maxEntries s.
Proof.
  unfold Add. destruct (maxEntries s <=? 0); [reflexivity|]. simpl.
  destruct (over_max s); [apply evict_maxEntries | reflexivity].
Qed.

Lemma Add_lookup_same keys s h sg pk :
  0 < maxEntries s ->
  validSigs (Add keys s h sg pk) !! h = Some (mkEntry sg pk).
Proof. intros Hpos. rewrite Add_on by assumption. simpl. apply lookup_insert_eq. Qed.

Lemma len_insert_le m h e : len (<[h := e]> m) <= len m + 1.
Proof.
  unfold len. rewrite map_size_insert. destruct (m !! h); simpl; lia.
Qed.

(** One insertion keeps the map within the capacity and adds at most one
    entry. *)
Lemma Add_len_bound keys s h sg pk :
  0 < maxEntries s ->
  len (validSigs s) < max_uint ->
  len (validSigs s) <= maxEntries s ->
  range_order (validSigs s) keys ->
  len (validSigs (Add keys s h sg pk)) <= maxEntries s /\
  len (validSigs (Add keys s h sg pk)) <= len (validSigs s) + 1.
Proof.
  intros Hpos Hlt Hle Hr. rewrite Add_on by assumption.
  pose proof (over_max_spec s Hlt) as Hspec.
  destruct (over_max s) eqn:Hov; cbn [validSigs].
  - pose proof (over_max_nonempty s Hpos Hov) as Hne.
    pose proof (evict_len keys s Hne Hr) as Hev.
    pose proof (len_insert_le (validSigs (evict keys s)) h (mkEntry sg pk)).
    lia.
  - pose proof (len_insert_le (validSigs s) h (mkEntry sg pk)).
    symmetry in Hspec. rewrite Z.gtb_ltb in Hspec.
    apply Z.ltb_ge in Hspec. lia.
Qed.

(** ** Sequences of insertions *)

Lemma AddAll_cons (a : AddCall) (calls : list AddCall) s :
  AddAll (a :: calls) s = AddAll calls (AddOne s a).
Proof. reflexivity. Qed.

Lemma AddOne_maxEntries s (a : AddCall) : maxEntries (AddOne s a) = maxEntries s.
Proof. apply Add_maxEntries. Qed.

Lemma ranges_ok_take (calls : list AddCall) s (k : nat) :
  ranges_ok calls s -> ranges_ok (take k calls) s.
Proof.
  revert s k. induction calls as [|a rest IH]; intros s [|k] Hr; simpl; try done.
  destruct Hr as [Ha Hrest]. split; [assumption | by apply IH].
Qed.

(** The invariant carried along a run: the map is within the capacity and
    holds no more entries than insertions were made. *)
Lemma AddAll_invariant (C : Z) (calls : list AddCall) s (j : Z) :
  0 < C -> maxEntries s = C ->
  len (validSigs s) <= C -> len (validSigs s) <= j ->
  (C < max_uint \/ j + Z.of_nat (length calls) < max_uint) ->
  ranges_ok calls s ->
  len (validSigs (AddAll calls s)) <= C.
Proof.
  intros HC. revert s j.
  induction calls as [|a rest IH]; intros s j Hmax HleC Hlej Hroom Hr;
    [assumption|].
  rewrite AddAll_cons. destruct Hr as [Ha Hrest].
  assert (Hlt : len (validSigs s) < max_uint).
  { destruct Hroom as [Hroom | Hroom]; [lia|]. simpl length in Hroom. lia. }
  destruct (Add_len_bound (ac_keys a) s (ac_hash a) (ac_sig a) (ac_pub a))
    as [Hb1 Hb2]; try assumption; try lia.
  apply (IH (AddOne s a) (j + 1)).
  - by rewrite AddOne_maxEntries.
  - unfold AddOne. lia.
  - unfold AddOne. lia.
  - destruct Hroom as [Hroom | Hroom]; [by left | right].
    simpl length in Hroom. lia.
  - assumption.
Qed.

Lemma AddAll_off (calls : list AddCall) s :
  maxEntries s <= 0 -> AddAll calls s = s.
Proof.
  intros Hle. induction calls as [|a rest IH]; [reflexivity|].
  rewrite AddAll_cons. unfold AddOne. by rewrite Add_off.
Qed.

(** ** Construction *)

Lemma NewSigCacheXor_ok {E : Type} (new : Z -> G) (C : Z)
    (rd : nat -> ReadResult E) s :
  NewSigCacheXor new C rd = inl s ->
  validSigs s = ∅ /\ maxEntries s = C /\
  xorShift s = new (Uint64 (rr_buf (rd 8%nat))).
Proof.
  unfold NewSigCacheXor. destruct (rr_err (rd 8%nat)); [discriminate|].
  intros [= <-]. by simpl.
Qed.

(** * The claims *)

(** C1. Capacity invariant: for a cache built with capacity [C > 0], after
    every insertion of any sequence of insertions the map holds at most [C]
    entries.  The side condition says that [len(m)+1] does not wrap: either
    the capacity is not the largest [uint], or fewer insertions than that
    are made (a Go map's length is an [int], so it always holds there). *)
Theorem capacity_invariant {E : Type} (new : Z -> G) (C : Z)
    (rd : nat -> ReadResult E) s0 (calls : list AddCall) (k : nat) :
  0 < C ->
  (C < max_uint \/ Z.of_nat (length calls) < max_uint) ->
  NewSigCacheXor new C rd = inl s0 ->
  ranges_ok calls s0 ->
  len (validSigs (AddAll (take k calls) s0)) <= C.
Proof.
  intros HC Hroom Hnew Hr.
  destruct (NewSigCacheXor_ok new C rd s0 Hnew) as (Hemp & Hmax & _).
  assert (Hz : len (validSigs s0) = 0) by (by rewrite Hemp).
  apply (AddAll_invariant C (take k calls) s0 0); try assumption; try lia.
  - destruct Hroom as [Hroom | Hroom]; [by left | right].
    rewrite length_take. lia.
  - by apply ranges_ok_take.
Qed.

(** C3. Eviction count: whenever the eviction branch of an insertion runs
    it deletes exactly one entry of the map; and inserting a key that is
    not in a map holding exactly [maxEntries] entries runs that branch,
    removes exactly one existing entry and leaves [maxEntries] entries. *)
Theorem eviction_count keys s (h : list Z) (sg : Signature) (pk : PublicKey) :
  0 < maxEntries s ->
  range_order (validSigs s) keys ->
  (over_max s = true ->
     exists k, is_Some (validSigs s !! k) /\
       validSigs (evict keys s) = delete k (validSigs s) /\
       len (validSigs (evict keys s)) = len (validSigs s) - 1) /\
  (len (validSigs s) = maxEntries s ->
   len (validSigs s) < max_uint ->
   validSigs s !! h = None ->
     over_max s = true /\
     (exists k, is_Some (validSigs s !! k) /\
        validSigs (Add keys s h sg pk) =
          <[h := mkEntry sg pk]> (delete k (validSigs s))) /\
     len (validSigs (Add keys s h sg pk)) = maxEntries s).
Proof.
  intros Hpos Hr.
  assert (Hev : over_max s = true ->
     is_Some (validSigs s !! victim keys s) /\
     validSigs (evict keys s) = delete (victim keys s) (validSigs s) /\
     len (validSigs (evict keys s)) = len (validSigs s) - 1).
  { intros Hov. pose proof (over_max_nonempty s Hpos Hov) as Hne.
    split; [by apply victim_present|].
    split; [apply evict_validSigs | by apply evict_len]. }
  split.
  - intros Hov. exists (victim keys s). by apply Hev.
  - intros Hfull Hlt Hnone.
    assert (Hov : over_max s = true).
    { rewrite over_max_spec by assumption. apply Z.gtb_lt. lia. }
    destruct (Hev Hov) as (Hin & Hmap & Hlen).
    rewrite Add_on by assumption. rewrite Hov. cbn [validSigs].
    split; [reflexivity|]. split.
    + exists (victim keys s). by rewrite Hmap.
    + unfold len in *. rewrite map_size_insert_None.
      * lia.
      * rewrite Hmap. destruct (decide (victim keys s = h)) as [->|Hne].
        -- apply lookup_delete_eq.
        -- by rewrite lookup_delete_ne.
Qed.

(** C4. Membership test: [Exists] answers [false] for a hash that is not
    a key; for a key it answers [true] exactly when the stored signature
    and the stored public key both equal the supplied ones under their
    [Equals]; whatever the answer, the cache is left as it was. *)
Theorem Exists_spec s (h : list Z) (sg : Signature) (pk : PublicKey) :
  (validSigs s !! h = None -> (Exists s h sg pk).1 = false) /\
  (forall e, validSigs s !! h = Some e ->
     ((Exists s h sg pk).1 = true <->
      equals (sig e) sg = true /\ equals (pubKey e) pk = true)) /\
  (Exists s h sg pk).2 = s.
Proof.
  unfold Exists. split; [|split].
  - by intros ->.
  - intros e ->. cbn [fst]. rewrite andb_true_iff. tauto.
  - by destruct (validSigs s !! h).
Qed.

(** C6. Zero capacity: on a cache built with capacity 0 every insertion is
    a no-op, the map stays empty and [Exists] answers [false]. *)
Theorem zero_capacity {E : Type} (new : Z -> G) (rd : nat -> ReadResult E)
    s0 (calls : list AddCall) (h : list Z) (sg : Signature) (pk : PublicKey) :
  NewSigCacheXor new 0 rd = inl s0 ->
  AddAll calls s0 = s0 /\
  validSigs (AddAll calls s0) = ∅ /\
  (Exists (AddAll calls s0) h sg pk).1 = false.
Proof.
  intros Hnew.
  destruct (NewSigCacheXor_ok new 0 rd s0 Hnew) as (Hemp & Hmax & _).
  rewrite AddAll_off by lia.
  split; [reflexivity|]. split; [assumption|].
  unfold Exists. by rewrite Hemp, lookup_empty.
Qed.

(** C7. Construction asks the entropy source for exactly 8 bytes; an error
    of the read is returned and no cache is built, which under the contract
    of the reader covers every read of fewer than 8 bytes; without an error
    the cache holds the capacity as given, an empty map and the generator
    seeded with the bytes read. *)
Theorem NewSigCacheXor_spec {E : Type} (new : Z -> G) (C : Z)
    (rd : nat -> ReadResult E) :
  (forall rd' : nat -> ReadResult E, rd' 8%nat = rd 8%nat ->
     @NewSigCacheXor G Signature PublicKey E new C rd' = @NewSigCacheXor G Signature PublicKey E new C rd) /\
  (forall err, rr_err (rd 8%nat) = Some err ->
     @NewSigCacheXor G Signature PublicKey E new C rd = inr err) /\
  (read_contract 8 (rd 8%nat) -> (rr_n (rd 8%nat) < 8)%nat ->
     exists err, @NewSigCacheXor G Signature PublicKey E new C rd = inr err) /\
  (rr_err (rd 8%nat) = None ->
     @NewSigCacheXor G Signature PublicKey E new C rd =
       inl {| validSigs := ∅; maxEntries := C;
              xorShift := new (Uint64 (rr_buf (rd 8%nat))) |}).
Proof.
  unfold NewSigCacheXor. repeat split.
  - intros rd' ->. reflexivity.
  - by intros err ->.
  - intros Hc Hn. destruct (rr_err (rd 8%nat)) as [err|] eqn:He; [by exists err|].
    apply Hc in He. lia.
  - by intros ->.
Qed.

(** C9. With capacity at least 1, right after [Add] the hash is a key of
    the map and is bound to the signature and public key just supplied. *)
Theorem Add_then_present keys s (h : list Z) (sg : Signature) (pk : PublicKey) :
  0 < maxEntries s ->
  validSigs (Add keys s h sg pk) !! h = Some (mkEntry sg pk).
Proof. apply Add_lookup_same. Qed.

(** C5, as the code has it.  Re-inserting a triple that is present leaves
    the whole cache as it was, without eviction, as long as the map holds
    fewer than [maxEntries] entries; so a second insertion of a triple
    changes nothing when the first one left the map below the capacity.
    On a map that has reached the capacity the eviction branch runs all
    the same: the triple is present afterwards, and the map keeps its size
    when the key found is the re-inserted one and loses one entry
    otherwise. *)
Theorem reinsert_present keys s (h : list Z) (sg : Signature) (pk : PublicKey) :
  range_order (validSigs s) keys ->
  maxEntries s <= max_uint ->
  (validSigs s !! h = Some (mkEntry sg pk) ->
   len (validSigs s) < maxEntries s ->
     evicts s = false /\ Add keys s h sg pk = s) /\
  (0 < maxEntries s ->
   len (validSigs (Add keys s h sg pk)) < maxEntries s ->
     forall keys', Add keys' (Add keys s h sg pk) h sg pk = Add keys s h sg pk) /\
  (validSigs s !! h = Some (mkEntry sg pk) ->
   0 < maxEntries s <= len (validSigs s) ->
   len (validSigs s) < max_uint ->
     evicts s = true /\
     validSigs (Add keys s h sg pk) !! h = Some (mkEntry sg pk) /\
     len (validSigs (Add keys s h sg pk)) =
       if decide (victim keys s = h) then len (validSigs s)
       else len (validSigs s) - 1).
Proof.
  intros Hr Huint.
  assert (Hbelow : forall s' keys',
            validSigs s' !! h = Some (mkEntry sg pk) ->
            maxEntries s' <= max_uint ->
            len (validSigs s') < maxEntries s' ->
            evicts s' = false /\ Add keys' s' h sg pk = s').
  { intros s' keys' Hin Hu' Hroom.
    assert (Hov : over_max s' = false).
    { rewrite over_max_spec by lia.
      rewrite Z.gtb_ltb. apply Z.ltb_ge. lia. }
    split; [unfold evicts; rewrite Hov; apply andb_false_r|].
    pose proof (len_nonneg (validSigs s')).
    rewrite Add_on by lia. rewrite Hov. cbn zeta.
    rewrite insert_id by assumption. by destruct s'. }
  split; [|split].
  - intros Hin Hroom. by apply Hbelow.
  - intros Hpos Hroom keys'. apply Hbelow.
    + by apply Add_lookup_same.
    + by rewrite Add_maxEntries.
    + by rewrite Add_maxEntries.
  - intros Hin [Hpos Hfull] Hlt.
    assert (Hov : over_max s = true).
    { rewrite over_max_spec by assumption. apply Z.gtb_lt. lia. }
    pose proof (over_max_nonempty s Hpos Hov) as Hne.
    pose proof (victim_present keys s Hne Hr) as Hv.
    split.
    { unfold evicts. rewrite Hov.
      by rewrite (proj2 (Z.leb_gt _ _) Hpos). }
    split; [by apply Add_lookup_same|].
    rewrite Add_on by assumption. rewrite Hov. cbn [validSigs].
    rewrite evict_validSigs. unfold len.
    apply map_size_non_empty_iff in Hne.
    destruct (decide (victim keys s = h)) as [Heq | Hneq].
    + rewrite map_size_insert_None by (rewrite Heq; apply lookup_delete_eq).
      rewrite map_size_delete_Some by assumption. lia.
    + rewrite map_size_insert_Some
        by (rewrite lookup_delete_ne by assumption; eauto).
      rewrite map_size_delete_Some by assumption. lia.
Qed.

(** C8, as the code has it.  [Exists] leaves the generator where it was;
    [Add] moves it by exactly four calls of [Next] when its eviction branch
    runs and leaves it where it was otherwise. *)
Theorem generator_advance keys s (h : list Z) (sg : Signature) (pk : PublicKey) :
  xorShift (Exists s h sg pk).2 = xorShift s /\
  xorShift (Add keys s h sg pk) =
    if evicts s then advance 4 (xorShift s) else xorShift s.
Proof.
  split.
  - unfold Exists. by destruct (validSigs s !! h).
  - unfold Add, evicts. destruct (maxEntries s <=? 0); [reflexivity|].
    cbn [negb andb xorShift]. destruct (over_max s); [|reflexivity].
    apply evict_xorShift.
Qed.

End Properties.

(** ** The cache on concrete inputs *)

Lemma New_fresh (C b : Z) :
  @NewSigCacheXor Z Z Z unit counter_New C (rd_fill b) =
    inl (fresh C (Uint64 (replicate 8 b))).
Proof. reflexivity. Qed.

Lemma range_s_BA : range_order (validSigs s_BA) [hB; hA].
Proof. unfold range_order. vm_compute. apply perm_swap. Defined.

Lemma range_s_zero : range_order (validSigs s_zero) [zeroEntry; hOne].
Proof. unfold range_order. vm_compute. reflexivity. Defined.

Lemma ranges_calls_BA : ranges_ok calls_BA (fresh 2 0).
Proof. vm_compute. repeat split; reflexivity. Defined.

(** C2. The random hash is made of four draws written big-endian, and the
    first key above it is the one evicted; the fallback is where the code
    parts from the claim.  On a full map holding the zero hash and 0x00..01,
    visited in that order, with no key above the random hash, the
    specification's victim is the first key visited, the zero hash, while
    [Add] deletes 0x00..01 and keeps the zero hash: the test
    [foundEntry == zeroEntry] takes a zero key for "nothing found yet". *)
Theorem fallback_skips_zero_hash :
  let keys := [zeroEntry; hOne] in
  let R := (randHash (xorShift s_zero)).1 in
  range_order (validSigs s_zero) keys /\
  evicts s_zero = true /\
  R = PutUint64 max_uint ++ PutUint64 0 ++ PutUint64 1 ++ PutUint64 2 /\
  Forall (fun k => (bytes_Compare k R >? 0) = false) keys /\
  spec_victim R keys = Some zeroEntry /\
  victim keys s_zero = hOne /\
  validSigs (Add keys s_zero hB 3 3) !! zeroEntry = Some (mkEntry 1 1) /\
  validSigs (Add keys s_zero hB 3 3) !! hOne = None.
Proof.
  cbn zeta. split; [exact range_s_zero|].
  split; [reflexivity|]. split; [reflexivity|].
  split; [repeat constructor|].
  split; [reflexivity|]. split; [reflexivity|].
  split; vm_compute; reflexivity.
Qed.

(** C1, on a run: capacity 2, three insertions, the third one evicting. *)
Lemma capacity_invariant_witness :
  let calls := calls_BA ++ [mkCall [hB; hA] hC 3 3] in
  ranges_ok calls (fresh 2 0) /\
  len (validSigs (AddAll (take 3 calls) (fresh 2 0))) <= 2.
Proof.
  cbn zeta.
  assert (Hr : ranges_ok (calls_BA ++ [mkCall [hB; hA] hC 3 3]) (fresh 2 0)).
  { vm_compute. repeat split; try reflexivity. apply perm_swap. }
  split; [exact Hr|].
  apply (capacity_invariant counter_New 2 (rd_fill 0) (fresh 2 0)
           (calls_BA ++ [mkCall [hB; hA] hC 3 3]) 3).
  - reflexivity.
  - left. reflexivity.
  - reflexivity.
  - exact Hr.
Defined.

(** C3, on the full cache [s_BA] and the new key [hC]. *)
Lemma eviction_count_witness :
  over_max s_BA = true /\
  len (validSigs (evict [hB; hA] s_BA)) = len (validSigs s_BA) - 1 /\
  len (validSigs (Add [hB; hA] s_BA hC 3 3)) = maxEntries s_BA.
Proof.
  destruct (eviction_count [hB; hA] s_BA hC 3 3) as [Hev Hnew].
  - reflexivity.
  - exact range_s_BA.
  - destruct Hev as (k & _ & _ & Hlen); [reflexivity|].
    destruct Hnew as (Hov & _ & Hfull); try reflexivity.
    split; [exact Hov|]. split; [exact Hlen | exact Hfull].
Defined.

(** C4, on [s_BA]: an absent hash, the stored pair, a swapped key. *)
Lemma Exists_spec_witness :
  (Exists s_BA hC 3 3).1 = false /\
  (Exists s_BA hA 1 1).1 = true /\
  (Exists s_BA hA 1 2).1 <> true /\
  (Exists s_BA hA 1 2).2 = s_BA.
Proof.
  destruct (Exists_spec s_BA hC 3 3) as (Habs & _ & _).
  destruct (Exists_spec s_BA hA 1 1) as (_ & Hhit & _).
  destruct (Exists_spec s_BA hA 1 2) as (_ & Hmiss & Hsame).
  split; [apply Habs; reflexivity|].
  split; [apply (Hhit (mkEntry 1 1)); [reflexivity | split; reflexivity]|].
  split; [|exact Hsame].
  intros Ht. apply (Hmiss (mkEntry 1 1)) in Ht; [|reflexivity].
  destruct Ht as [_ Hp]. discriminate Hp.
Defined.

(** C6, on a cache built with capacity 0. *)
Lemma zero_capacity_witness :
  AddAll calls_BA (fresh 0 0) = fresh 0 0 /\
  validSigs (AddAll calls_BA (fresh 0 0)) = ∅ /\
  (Exists (AddAll calls_BA (fresh 0 0)) hA 1 1).1 = false.
Proof.
  apply (zero_capacity counter_New (rd_fill 0) (fresh 0 0) calls_BA hA 1 1).
  reflexivity.
Defined.

(** C7, on a short read and on a full one. *)
Lemma NewSigCacheXor_spec_witness :
  @NewSigCacheXor Z Z Z unit counter_New 5 rd_short = inr tt /\
  (exists err, @NewSigCacheXor Z Z Z unit counter_New 5 rd_short = inr err) /\
  @NewSigCacheXor Z Z Z unit counter_New 5 (rd_fill 255) = inl (fresh 5 max_uint).
Proof.
  destruct (@NewSigCacheXor_spec Z Z Z unit counter_New 5 rd_short)
    as (_ & Herr & Hshort & _).
  destruct (@NewSigCacheXor_spec Z Z Z unit counter_New 5 (rd_fill 255))
    as (_ & _ & _ & Hok).
  split; [apply Herr; reflexivity|].
  split; [apply Hshort; [split; intros Hd; discriminate Hd | vm_compute; lia]|].
  apply Hok. reflexivity.
Defined.

(** C9, on an insertion that evicts. *)
Lemma Add_then_present_witness :
  validSigs (Add [hB; hA] s_BA hC 3 3) !! hC = Some (mkEntry 3 3).
Proof. apply (Add_then_present [hB; hA] s_BA hC 3 3). reflexivity. Defined.

(** C5 as stated fails on the full cache [s_BA]: the triple of [hA] is
    present, yet inserting it again runs the eviction branch, which finds
    [hB]; the map goes from two entries to one, so the second insertion of
    the triple does not leave the state of the first. *)
Lemma reinsert_full_evicts :
  range_order (validSigs s_BA) [hB; hA] /\
  validSigs s_BA !! hA = Some (mkEntry 1 1) /\
  evicts s_BA = true /\
  len (validSigs s_BA) = 2 /\
  len (validSigs (Add [hB; hA] s_BA hA 1 1)) = 1 /\
  validSigs (Add [hB; hA] s_BA hA 1 1) !! hB = None /\
  Add [hB; hA] s_BA hA 1 1 <> s_BA.
Proof.
  split; [exact range_s_BA|].
  repeat (split; [vm_compute; reflexivity|]).
  intros Heq. apply (f_equal (fun s => len (validSigs s))) in Heq.
  vm_compute in Heq. discriminate Heq.
Qed.

(** C5, on the cache [s_A] below its capacity and on the full [s_BA]. *)
Lemma reinsert_present_witness :
  Add [hA] s_A hA 1 1 = s_A /\
  Add [hA] (Add [hA] s_A hA 1 1) hA 1 1 = Add [hA] s_A hA 1 1 /\
  len (validSigs (Add [hB; hA] s_BA hA 1 1)) = len (validSigs s_BA) - 1.
Proof.
  destruct (reinsert_present [hA] s_A hA 1 1) as (Hbelow & Htwice & _).
  - unfold range_order. vm_compute. reflexivity.
  - vm_compute. discriminate.
  - destruct (reinsert_present [hB; hA] s_BA hA 1 1) as (_ & _ & Hfull).
    + exact range_s_BA.
    + vm_compute. discriminate.
    + split; [apply Hbelow; reflexivity|].
      split; [apply Htwice; reflexivity|].
      destruct Hfull as (_ & _ & Hlen).
      * reflexivity.
      * vm_compute. split; [reflexivity | discriminate].
      * reflexivity.
      * exact Hlen.
Defined.

(** C8 as stated fails on the full cache [s_BA]: the insertion of [hC]
    evicts and leaves the generator four calls of [Next] further, not
    one. *)
Lemma eviction_draws_four :
  evicts s_BA = true /\
  xorShift (Add [hB; hA] s_BA hC 3 3) = advance 4 (xorShift s_BA) /\
  xorShift (Add [hB; hA] s_BA hC 3 3) <> advance 1 (xorShift s_BA).
Proof.
  split; [reflexivity|]. split; [reflexivity|].
  vm_compute. discriminate.
Qed.

(** * Further behaviour of the cache *)

Section Behaviour.

Context {G : Type} `{XorShift G}.
Context {Signature PublicKey : Type}.
Context `{Equals Signature} `{Equals PublicKey}.

Implicit Types s : @SigCacheXor G Signature PublicKey.
Implicit Types m : gmap (list Z) (@sigCacheEntry Signature PublicKey).
Implicit Types keys : list (list Z).

(** ** The two branches of an insertion *)

Lemma over_max_iff s :
  len (validSigs s) < max_uint ->
  (over_max s = true <-> maxEntries s <= len (validSigs s)).
Proof.
  intros Hlt. rewrite over_max_spec by assumption.
  rewrite Z.gtb_ltb, Z.ltb_lt. lia.
Qed.

Lemma over_max_below s :
  maxEntries s <= max_uint -> len (validSigs s) < maxEntries s ->
  over_max s = false.
Proof.
  intros Hu Hroom. apply not_true_is_false.
  rewrite over_max_iff by lia. lia.
Qed.

Lemma Add_keep keys s (h : list Z) (sg : Signature) (pk : PublicKey) :
  0 < maxEntries s -> over_max s = false ->
  Add keys s h sg pk =
    {| validSigs := <[h := mkEntry sg pk]> (validSigs s);
       maxEntries := maxEntries s;
       xorShift := xorShift s |}.
Proof. intros Hpos Hov. rewrite Add_on by assumption. by rewrite Hov. Qed.

Lemma Add_evict keys s (h : list Z) (sg : Signature) (pk : PublicKey) :
  0 < maxEntries s -> over_max s = true ->
  Add keys s h sg pk =
    {| validSigs := <[h := mkEntry sg pk]> (delete (victim keys s) (validSigs s));
       maxEntries := maxEntries s;
       xorShift := advance 4 (xorShift s) |}.
Proof.
  intros Hpos Hov. rewrite Add_on by assumption. rewrite Hov. cbn zeta.
  by rewrite evict_validSigs, evict_maxEntries, evict_xorShift.
Qed.

(** X1. A lookup right after an insertion under the same hash compares
    the pair asked for with the pair just stored, whatever the cache held
    and whatever was evicted; so the triple just inserted is found as soon
    as [Equals] holds of each value and itself. *)
Theorem Exists_after_Add keys s (h : list Z) (sg sg' : Signature)
    (pk pk' : PublicKey) :
  0 < maxEntries s ->
  (Exists (Add keys s h sg pk) h sg' pk').1 = equals pk pk' && equals sg sg' /\
  (equals pk pk = true -> equals sg sg = true ->
     (Exists (Add keys s h sg pk) h sg pk).1 = true).
Proof.
  intros Hpos. unfold Exists. rewrite !Add_lookup_same by assumption.
  cbn [fst sig pubKey]. split; [reflexivity|].
  by intros -> ->.
Qed.


(** X3. Below the capacity an insertion evicts nothing: the generator is
    left alone, every other key keeps its entry, and the map grows by one
    entry for a new hash and keeps its size for a hash already there. *)
Theorem Add_below_capacity keys s (h : list Z) (sg : Signature) (pk : PublicKey) :
  maxEntries s <= max_uint ->
  len (validSigs s) < maxEntries s ->
  xorShift (Add keys s h sg pk) = xorShift s /\
  (forall k, k <> h ->
     validSigs (Add keys s h sg pk) !! k = validSigs s !! k) /\
  len (validSigs (Add keys s h sg pk)) =
    len (validSigs s) + match validSigs s !! h with Some _ => 0 | None => 1 end.
Proof.
  intros Hu Hroom. pose proof (len_nonneg (validSigs s)).
  rewrite Add_keep by (try apply over_max_below; lia). cbn [validSigs xorShift].
  split; [reflexivity|]. split.
  - intros k Hk. by rewrite lookup_insert_ne.
  - unfold len. rewrite map_size_insert. destruct (validSigs s !! h); simpl; lia.
Qed.

(** X4. At the capacity an insertion touches two keys at most: the key
    found by the scan, which was an entry of the map and is gone afterwards
    unless it is the hash being inserted, and that hash; every other key
    keeps its entry. *)
Theorem Add_at_capacity keys s (h : list Z) (sg : Signature) (pk : PublicKey) :
  0 < maxEntries s <= len (validSigs s) ->
  len (validSigs s) < max_uint ->
  range_order (validSigs s) keys ->
  is_Some (validSigs s !! victim keys s) /\
  (victim keys s <> h ->
     validSigs (Add keys s h sg pk) !! victim keys s = None) /\
  (forall k, k <> h -> k <> victim keys s ->
     validSigs (Add keys s h sg pk) !! k = validSigs s !! k).
Proof.
  intros [Hpos Hfull] Hlt Hr.
  assert (Hov : over_max s = true) by (by apply over_max_iff).
  rewrite Add_evict by assumption. cbn [validSigs].
  split; [|split].
  - apply victim_present; [by apply over_max_nonempty | assumption].
  - intros Hne. rewrite lookup_insert_ne by done. apply lookup_delete_eq.
  - intros k Hk Hv. rewrite lookup_insert_ne by done.
    by rewrite lookup_delete_ne.
Qed.

(** ** Runs that fit into the capacity *)

(** X5. A run of insertions that fits into the room left evicts nothing:
    the generator is left alone, every key present before is still a key,
    a key outside the run keeps its entry, every hash of the run is a key,
    and when the hashes of the run are pairwise distinct each one is bound
    to the pair inserted with it. *)
Theorem fill_without_eviction (calls : list AddCall) s :
  maxEntries s <= max_uint ->
  len (validSigs s) + Z.of_nat (length calls) <= maxEntries s ->
  xorShift (AddAll calls s) = xorShift s /\
  (forall k, is_Some (validSigs s !! k) ->
     is_Some (validSigs (AddAll calls s) !! k)) /\
  (forall k, k ∉ ac_hash <$> calls ->
     validSigs (AddAll calls s) !! k = validSigs s !! k) /\
  (forall a, a ∈ calls -> is_Some (validSigs (AddAll calls s) !! ac_hash a)) /\
  (NoDup (ac_hash <$> calls) -> forall a, a ∈ calls ->
     validSigs (AddAll calls s) !! ac_hash a =
       Some (mkEntry (ac_sig a) (ac_pub a))).
Proof.
  revert s. induction calls as [|a rest IH]; intros s Hu Hroom.
  { split; [reflexivity|]. split; [by intros|]. split; [by intros|].
    split; [intros a Ha | intros _ a Ha]; by apply elem_of_nil in Ha. }
  rewrite AddAll_cons. pose proof (len_nonneg (validSigs s)) as Hn.
  rewrite length_cons in Hroom.
  assert (Hov : over_max s = false) by (apply over_max_below; lia).
  assert (Hstep : AddOne s a =
            {| validSigs := <[ac_hash a := mkEntry (ac_sig a) (ac_pub a)]> (validSigs s);
               maxEntries := maxEntries s; xorShift := xorShift s |}).
  { unfold AddOne. apply Add_keep; [lia | assumption]. }
  assert (Hlen : len (validSigs (AddOne s a)) <= len (validSigs s) + 1).
  { rewrite Hstep. apply len_insert_le. }
  destruct (IH (AddOne s a)) as (Hg & Hkeep & Hout & Hin & Hval).
  { by rewrite AddOne_maxEntries. }
  { rewrite AddOne_maxEntries. lia. }
  split; [|split; [|split; [|split]]].
  - rewrite Hg. by rewrite Hstep.
  - intros k Hk. apply Hkeep. rewrite Hstep. cbn [validSigs].
    rewrite lookup_insert. case_decide; [eauto | assumption].
  - intros k Hk. rewrite fmap_cons, not_elem_of_cons in Hk.
    destruct Hk as [Hne Hk]. rewrite Hout by assumption.
    rewrite Hstep. cbn [validSigs]. by rewrite lookup_insert_ne.
  - intros a' Ha'. apply elem_of_cons in Ha' as [-> | Ha'].
    + apply Hkeep. rewrite Hstep. cbn [validSigs].
      rewrite lookup_insert_eq. eauto.
    + by apply Hin.
  - intros Hnd a' Ha'. rewrite fmap_cons in Hnd.
    apply NoDup_cons in Hnd as [Hfresh Hnd].
    apply elem_of_cons in Ha' as [-> | Ha'].
    + rewrite Hout by assumption. rewrite Hstep. cbn [validSigs].
      apply lookup_insert_eq.
    + by apply Hval.
Qed.

(** X6. With capacity 1 the cache holds exactly the entry inserted last:
    an insertion into a map of at most one entry leaves the singleton of
    the new entry, the former entry being evicted whatever the random hash
    is. *)
Theorem capacity_one keys s (h : list Z) (sg : Signature) (pk : PublicKey) :
  maxEntries s = 1 ->
  len (validSigs s) <= 1 ->
  range_order (validSigs s) keys ->
  validSigs (Add keys s h sg pk) = {[h := mkEntry sg pk]}.
Proof.
  intros Hmax Hle Hr. pose proof (len_nonneg (validSigs s)) as Hn.
  assert (Hlt : len (validSigs s) < max_uint) by (unfold max_uint; lia).
  destruct (decide (len (validSigs s) = 0)) as [Hz | Hnz].
  - assert (Hemp : validSigs s = ∅).
    { apply map_size_empty_iff. unfold len in Hz. lia. }
    rewrite Add_keep; [|lia|].
    + cbn [validSigs]. by rewrite Hemp.
    + apply not_true_is_false. rewrite over_max_iff by assumption. lia.
  - assert (Hov : over_max s = true) by (apply over_max_iff; lia).
    rewrite Add_evict by (assumption || lia). cbn [validSigs].
    assert (Hv : is_Some (validSigs s !! victim keys s)).
    { apply victim_present; [apply over_max_nonempty; lia || assumption | assumption]. }
    assert (Hdel : delete (victim keys s) (validSigs s) = ∅).
    { apply map_size_empty_iff. rewrite map_size_delete_Some by assumption.
      unfold len in *. lia. }
    by rewrite Hdel.
Qed.

(** ** Which key the scan finds *)

Lemma find_above (R : list Z) keys (k : list Z) :
  k ∈ keys -> (bytes_Compare k R >? 0) = true ->
  exists k0, find (fun k' => bytes_Compare k' R >? 0) keys = Some k0 /\
             k0 ∈ keys /\ (bytes_Compare k0 R >? 0) = true.
Proof.
  intros Hin Hk.
  destruct (find (fun k' => bytes_Compare k' R >? 0) keys) as [k0|] eqn:Hf.
  - exists k0. split; [reflexivity|].
    apply find_some in Hf as [Hin0 Hk0]. split; [|assumption].
    by apply list_elem_of_In.
  - apply find_none_Forall in Hf. rewrite Forall_forall in Hf.
    specialize (Hf k Hin). congruence.
Qed.

(** X7. As soon as some key of the map is above the random hash, the key
    evicted is a key above the random hash; and when exactly one key is
    above it, that key is evicted in whatever order the map is visited. *)
Theorem victim_above keys s (k : list Z) :
  range_order (validSigs s) keys ->
  is_Some (validSigs s !! k) ->
  (bytes_Compare k (randHash (xorShift s)).1 >? 0) = true ->
  (bytes_Compare (victim keys s) (randHash (xorShift s)).1 >? 0) = true /\
  ((forall k', is_Some (validSigs s !! k') ->
      (bytes_Compare k' (randHash (xorShift s)).1 >? 0) = true -> k' = k) ->
   victim keys s = k).
Proof.
  intros Hr Hin Hk. apply (range_order_elem _ keys) in Hin; [|assumption].
  destruct (find_above _ keys k Hin Hk) as (k0 & Hf & Hin0 & Hk0).
  unfold victim. rewrite (scan_find_some _ keys k0 zeroEntry Hf).
  split; [assumption|]. intros Huniq. apply Huniq; [|assumption].
  by apply (range_order_elem _ keys).
Qed.

Lemma scan_keeps_nonzero (R : list Z) keys (f : list Z) :
  (bytes_Compare zeroEntry R >? 0) = false ->
  f <> zeroEntry -> scan R keys f <> zeroEntry.
Proof.
  intros Hz. revert f. induction keys as [|k rest IH]; intros f Hf;
    cbn [scan]; [assumption|].
  destruct (bytes_Compare k R >? 0) eqn:Hk; [congruence|].
  apply IH. by rewrite bool_decide_eq_false_2.
Qed.

Lemma scan_nonzero (R : list Z) keys (k : list Z) :
  (bytes_Compare zeroEntry R >? 0) = false ->
  k ∈ keys -> k <> zeroEntry -> scan R keys zeroEntry <> zeroEntry.
Proof.
  intros Hz. induction keys as [|k0 rest IH]; intros Hin Hk.
  { by apply elem_of_nil in Hin. }
  cbn [scan]. rewrite bool_decide_eq_true_2 by reflexivity.
  destruct (bytes_Compare k0 R >? 0) eqn:Hk0; [congruence|].
  destruct (decide (k0 = zeroEntry)) as [-> | Hne].
  - apply elem_of_cons in Hin as [-> | Hin]; [done | by apply IH].
  - by apply scan_keeps_nonzero.
Qed.

(** X8. The entry under the all-zero hash is never evicted while the map
    holds another key: the scan takes a zero [foundEntry] for "nothing
    found yet", and the zero hash is never above the random hash. *)
Theorem zero_hash_survives keys s (h k : list Z) (sg : Signature)
    (pk : PublicKey) (e : sigCacheEntry) :
  range_order (validSigs s) keys ->
  validSigs s !! zeroEntry = Some e ->
  is_Some (validSigs s !! k) -> k <> zeroEntry ->
  h <> zeroEntry ->
  victim keys s <> zeroEntry /\
  validSigs (Add keys s h sg pk) !! zeroEntry = Some e.
Proof.
  intros Hr Hzero Hk Hkz Hh.
  assert (Hv : victim keys s <> zeroEntry).
  { unfold victim. apply (scan_nonzero _ keys k); [apply zero_not_above| |assumption].
    by apply (range_order_elem (validSigs s) keys). }
  split; [assumption|].
  destruct (decide (0 < maxEntries s)) as [Hpos | Hoff];
    [|by rewrite Add_off by lia].
  destruct (over_max s) eqn:Hov.
  - rewrite Add_evict by assumption. cbn [validSigs].
    rewrite lookup_insert_ne by done. by rewrite lookup_delete_ne.
  - rewrite Add_keep by assumption. cbn [validSigs].
    by rewrite lookup_insert_ne.
Qed.

(** ** How far the map can shrink *)

Lemma len_delete_ge m (k : list Z) : len m - 1 <= len (delete k m).
Proof.
  unfold len. rewrite map_size_delete. destruct (m !! k); simpl; lia.
Qed.

Lemma len_insert_ge m (h : list Z) (e : sigCacheEntry) : len m <= len (<[h := e]> m).
Proof.
  unfold len. rewrite map_size_insert. destruct (m !! h); simpl; lia.
Qed.

Lemma over_max_full s : over_max s = true -> maxEntries s <= len (validSigs s).
Proof.
  unfold over_max. rewrite to_uint_to_int, Z.gtb_ltb, Z.ltb_lt.
  pose proof (len_nonneg (validSigs s)).
  pose proof (Z.mod_le (len (validSigs s) + 1) (2 ^ 64)). lia.
Qed.

Lemma Add_len_lower keys s (h : list Z) (sg : Signature) (pk : PublicKey) :
  maxEntries s - 1 <= len (validSigs s) ->
  maxEntries s - 1 <= len (validSigs (Add keys s h sg pk)).
Proof.
  intros Hle.
  destruct (decide (0 < maxEntries s)) as [Hpos | Hoff];
    [|by rewrite Add_off by lia].
  destruct (over_max s) eqn:Hov.
  - rewrite Add_evict by assumption. cbn [validSigs].
    apply over_max_full in Hov.
    pose proof (len_delete_ge (validSigs s) (victim keys s)).
    pose proof (len_insert_ge (delete (victim keys s) (validSigs s)) h
                  (mkEntry sg pk)). lia.
  - rewrite Add_keep by assumption. cbn [validSigs].
    pose proof (len_insert_ge (validSigs s) h (mkEntry sg pk)). lia.
Qed.

(** X9. Once the map holds all but one of the entries the capacity
    allows, no run of insertions brings it below that, whatever hashes are
    inserted and in whatever order the map is visited. *)
Theorem never_below_capacity_less_one (calls : list AddCall) s :
  maxEntries s - 1 <= len (validSigs s) ->
  maxEntries s - 1 <= len (validSigs (AddAll calls s)) /\
  maxEntries (AddAll calls s) = maxEntries s.
Proof.
  revert s. induction calls as [|a rest IH]; intros s Hle; [by split|].
  rewrite AddAll_cons.
  destruct (IH (AddOne s a)) as [Hlen Hmax].
  - rewrite AddOne_maxEntries. by apply Add_len_lower.
  - rewrite AddOne_maxEntries in Hlen, Hmax. by split.
Qed.

End Behaviour.

(** ** Big-endian encoding *)

Lemma byte_at (v k : Z) (n : Z) :
  0 <= k -> 0 <= n ->
  Z.testbit (Z.shiftl (Z.land (Z.shiftr v k) 255) k) n =
    Z.testbit v n && (k <=? n) && (n <? k + 8).
Proof.
  intros Hk Hn. rewrite Z.shiftl_spec by assumption.
  destruct (k <=? n) eqn:Hkn.
  - apply Z.leb_le in Hkn. change 255 with (Z.ones 8).
    rewrite Z.land_spec, Z.shiftr_spec by lia.
    replace (n - k + k) with n by lia.
    destruct (n <? k + 8) eqn:Hn8.
    + apply Z.ltb_lt in Hn8. rewrite Z.ones_spec_low by lia.
      by rewrite !andb_true_r.
    + apply Z.ltb_ge in Hn8. rewrite Z.ones_spec_high by lia.
      by rewrite !andb_false_r.
  - apply Z.leb_gt in Hkn. rewrite Z.testbit_neg_r by lia.
    by rewrite andb_false_r.
Qed.

(** X10. Reading back the eight bytes written for a 64-bit value gives the
    value: [Uint64] undoes [PutUint64]. *)
Theorem Uint64_PutUint64 (v : Z) :
  0 <= v <= max_uint -> Uint64 (PutUint64 v) = v.
Proof.
  intros [Hlo Hhi]. unfold max_uint in Hhi. apply Z.bits_inj'. intros n Hn.
  unfold Uint64, PutUint64. cbn [map nth].
  rewrite <- (Z.shiftl_0_r (Z.land (Z.shiftr v 0) 255)).
  rewrite !Z.lor_spec, !byte_at by lia.
  destruct (Z.testbit v n) eqn:Hb; cbn [andb].
  - assert (n < 64).
    { destruct (Z.ltb_spec n 64) as [|Hge]; [assumption|].
      rewrite (Z.bits_above_log2 v n) in Hb; [discriminate | lia |].
      destruct (Z.eq_dec v 0) as [-> | Hv0]; [simpl; lia|].
      apply Z.log2_lt_pow2; [lia|].
      apply Z.lt_le_trans with (2 ^ 64); [lia|].
      apply Z.pow_le_mono_r; lia. }
    assert (Hcase : n < 8 \/ 8 <= n < 16 \/ 16 <= n < 24 \/ 24 <= n < 32 \/
                    32 <= n < 40 \/ 40 <= n < 48 \/ 48 <= n < 56 \/ 56 <= n)
      by lia.
    decompose [or] Hcase; clear Hcase;
      repeat match goal with
             | |- context [?a <=? ?b] =>
                 first [ rewrite (proj2 (Z.leb_le a b)) by lia
                       | rewrite (proj2 (Z.leb_gt a b)) by lia ]
             | |- context [?a <? ?b] =>
                 first [ rewrite (proj2 (Z.ltb_lt a b)) by lia
                       | rewrite (proj2 (Z.ltb_ge a b)) by lia ]
             end; reflexivity.
  - by rewrite !orb_false_r.
Qed.

(** * Service flags *)

Lemma land_one_odd (f : Z) : Z.land f 1 = Z.b2z (Z.odd f).
Proof.
  change 1 with (Z.ones 1) at 1. rewrite Z.land_ones by lia.
  rewrite <- Z.bit0_odd. symmetry. apply Z.bit0_mod.
Qed.

Lemma FormatUint16_inj (x y : Z) :
  0 < x -> 0 < y -> FormatUint16 x = FormatUint16 y -> x = y.
Proof.
  destruct x as [|p|p], y as [|q|q]; try lia. intros _ _ Heq.
  cbn [FormatUint16] in Heq. f_equal.
  rewrite <- (HexString.to_pos_of_pos p), <- (HexString.to_pos_of_pos q).
  unfold HexString.of_pos. by rewrite Heq.
Qed.

Lemma FormatUint16_not_zero (x : Z) : 0 < x -> FormatUint16 x <> "0".
Proof.
  destruct x as [|p|p]; try lia. intros _ Heq. cbn [FormatUint16] in Heq.
  assert (Hp : p = 1%positive).
  { rewrite <- (HexString.to_pos_of_pos p). unfold HexString.of_pos.
    by rewrite Heq. }
  subst p. discriminate Heq.
Qed.

(** The printer on the name table, by cases on the flag. *)
Lemma String_cases (f : Z) :
  0 <= f <= max_uint ->
  ServiceFlag_String sfStrings f =
    if f =? 0 then "0x0"
    else if Z.odd f then
      if f =? 1 then "SFNodeNetwork"
      else "SFNodeNetwork|0x" +:+ FormatUint16 (f - 1)
    else "0x" +:+ FormatUint16 f.
Proof.
  intros [Hlo Hhi]. unfold max_uint in Hhi. unfold ServiceFlag_String.
  destruct (f =? 0) eqn:Hf0; [reflexivity|]. apply Z.eqb_neq in Hf0.
  cbn [sfStrings flag_loop]. change SFNodeNetwork with 1.
  rewrite land_one_odd. destruct (Z.odd f) eqn:Hodd; cbn [Z.b2z].
  - change (1 =? 1) with true. cbv iota.
    unfold to_uint. rewrite Z.mod_small by lia.
    change (TrimRight ("" +:+ ("SFNodeNetwork" +:+ "|")) "|")
      with "SFNodeNetwork".
    replace (f - 1 =? 0) with (f =? 1)
      by (destruct (Z.eqb_spec f 1), (Z.eqb_spec (f - 1) 0); lia).
    destruct (f =? 1); reflexivity.
  - change (0 =? 1) with false. cbv iota.
    rewrite (proj2 (Z.eqb_neq f 0) Hf0). reflexivity.
Qed.

(** X11. What [String] prints for a 64-bit flag set: "0x0" for no flag;
    the name "SFNodeNetwork" when bit 0 is set, followed by a bar and the
    other bits in hexadecimal when there are any; the hexadecimal value
    alone when bit 0 is not set. *)
Theorem ServiceFlag_String_shape (entries : list (Z * string)) (f : Z) :
  entries ≡ₚ sfStrings ->
  0 <= f <= max_uint ->
  ServiceFlag_String entries f =
    if f =? 0 then "0x0"
    else if Z.odd f then
      if f =? 1 then "SFNodeNetwork"
      else "SFNodeNetwork|0x" +:+ FormatUint16 (f - 1)
    else "0x" +:+ FormatUint16 f.
Proof.
  intros Hp Hf. apply Permutation_singleton_r in Hp. subst entries.
  by apply String_cases.
Qed.

(** X12. [String] tells 64-bit flag sets apart: two of them that print
    alike are equal. *)
Theorem ServiceFlag_String_inj (entries : list (Z * string)) (f g : Z) :
  entries ≡ₚ sfStrings ->
  0 <= f <= max_uint -> 0 <= g <= max_uint ->
  ServiceFlag_String entries f = ServiceFlag_String entries g ->
  f = g.
Proof.
  intros Hp Hf Hg. apply Permutation_singleton_r in Hp. subst entries.
  rewrite !String_cases by assumption.
  destruct (Z.eqb_spec f 0) as [-> | Hf0], (Z.eqb_spec g 0) as [-> | Hg0];
    [reflexivity | | |].
  - destruct (Z.odd g); [destruct (g =? 1); discriminate|].
    cbn. intros [= Heq]. symmetry in Heq.
    by apply FormatUint16_not_zero in Heq; [|lia].
  - destruct (Z.odd f); [destruct (f =? 1); discriminate|].
    cbn. intros [= Heq]. by apply FormatUint16_not_zero in Heq; [|lia].
  - destruct (Z.odd f), (Z.odd g); try (repeat case_match; discriminate).
    + destruct (Z.eqb_spec f 1) as [-> | Hf1], (Z.eqb_spec g 1) as [-> | Hg1];
        try reflexivity; try discriminate.
      cbn. intros [= Heq]. apply FormatUint16_inj in Heq; lia.
    + cbn. intros [= Heq]. apply FormatUint16_inj in Heq; lia.
Qed.

(** * The further properties on concrete inputs *)

Lemma range_s_1A : range_order (validSigs s_1A) [hOne; hA].
Proof. unfold range_order. vm_compute. apply perm_swap. Defined.

(** X1, on an insertion that evicts. *)
Lemma Exists_after_Add_witness :
  (Exists (Add [hB; hA] s_BA hC 3 3) hC 3 3).1 = true /\
  (Exists (Add [hB; hA] s_BA hC 3 3) hC 3 4).1 = false.
Proof.
  destruct (Exists_after_Add [hB; hA] s_BA hC 3 3 3 3) as [_ Hhit];
    [reflexivity|].
  destruct (Exists_after_Add [hB; hA] s_BA hC 3 3 3 4) as [Hmiss _];
    [reflexivity|].
  split; [apply Hhit; reflexivity | exact Hmiss].
Defined.


(** X3, on [s_A] and the new hash [hB]. *)
Lemma Add_below_capacity_witness :
  xorShift (Add [hA] s_A hB 2 2) = xorShift s_A /\
  validSigs (Add [hA] s_A hB 2 2) !! hA = validSigs s_A !! hA /\
  len (validSigs (Add [hA] s_A hB 2 2)) = 2.
Proof.
  destruct (Add_below_capacity [hA] s_A hB 2 2) as (Hg & Hk & Hl).
  - vm_compute. discriminate.
  - reflexivity.
  - split; [exact Hg|]. split; [|exact Hl].
    apply Hk. intros Heq. discriminate Heq.
Defined.

(** X4, on the full cache [s_BA] and the new hash [hC]: [hB] is found and
    gone, [hA] stays. *)
Lemma Add_at_capacity_witness :
  victim [hB; hA] s_BA = hB /\
  validSigs (Add [hB; hA] s_BA hC 3 3) !! hB = None /\
  validSigs (Add [hB; hA] s_BA hC 3 3) !! hA = validSigs s_BA !! hA.
Proof.
  destruct (Add_at_capacity [hB; hA] s_BA hC 3 3) as (_ & Hgone & Hkeep).
  - vm_compute. split; [reflexivity | discriminate].
  - reflexivity.
  - exact range_s_BA.
  - split; [reflexivity|]. split.
    + apply Hgone. intros Heq. vm_compute in Heq. discriminate Heq.
    + apply Hkeep; intros Heq; vm_compute in Heq; discriminate Heq.
Defined.

(** X5, on the two insertions that fill a cache of capacity 2. *)
Lemma fill_without_eviction_witness :
  xorShift (AddAll calls_BA (fresh 2 0)) = 0 /\
  validSigs (AddAll calls_BA (fresh 2 0)) !! hB = Some (mkEntry 2 2) /\
  validSigs (AddAll calls_BA (fresh 2 0)) !! hA = Some (mkEntry 1 1).
Proof.
  destruct (fill_without_eviction calls_BA (fresh 2 0))
    as (Hg & _ & _ & _ & Hval).
  - vm_compute. discriminate.
  - vm_compute. discriminate.
  - assert (Hnd : NoDup (ac_hash <$> calls_BA)).
    { apply (bool_decide_unpack _). vm_compute. exact I. }
    split; [exact Hg|]. split.
    + apply (Hval Hnd (mkCall [] hB 2 2)). apply list_elem_of_here.
    + apply (Hval Hnd (mkCall [hB] hA 1 1)).
      apply list_elem_of_further, list_elem_of_here.
Defined.

(** X6, on a cache of capacity 1 holding [hA]. *)
Lemma capacity_one_witness :
  validSigs (Add [hA] s_one hB 2 2) = {[hB := mkEntry 2 2]}.
Proof.
  apply (capacity_one [hA] s_one hB 2 2).
  - reflexivity.
  - vm_compute. discriminate.
  - unfold range_order. vm_compute. reflexivity.
Defined.

(** X7, on [s_1A], where [hA] alone is above the random hash: it is found
    although 0x00..01 is visited first. *)
Lemma victim_above_witness : victim [hOne; hA] s_1A = hA.
Proof.
  destruct (victim_above [hOne; hA] s_1A hA) as [_ Huniq].
  - exact range_s_1A.
  - vm_compute. eauto.
  - vm_compute. reflexivity.
  - apply Huniq. intros k' Hin Hab.
    apply (range_order_elem _ [hOne; hA]) in Hin; [|exact range_s_1A].
    assert (Hlow : (bytes_Compare hOne (randHash (xorShift s_1A)).1 >? 0) = false)
      by (vm_compute; reflexivity).
    apply elem_of_cons in Hin as [Heq | Hin].
    { exfalso. rewrite Heq, Hlow in Hab. discriminate Hab. }
    apply elem_of_cons in Hin as [Heq | Hin]; [exact Heq|].
    destruct (proj1 (elem_of_nil k') Hin).
Defined.

(** X8, on [s_zero] with the zero hash visited first. *)
Lemma zero_hash_survives_witness :
  victim [zeroEntry; hOne] s_zero <> zeroEntry /\
  validSigs (Add [zeroEntry; hOne] s_zero hB 3 3) !! zeroEntry =
    Some (mkEntry 1 1).
Proof.
  apply (zero_hash_survives [zeroEntry; hOne] s_zero hB hOne 3 3 (mkEntry 1 1)).
  - exact range_s_zero.
  - reflexivity.
  - vm_compute. eauto.
  - intros Heq. discriminate Heq.
  - intros Heq. discriminate Heq.
Defined.

(** X9, on the full cache [s_BA] and a re-insertion that evicts. *)
Lemma never_below_capacity_less_one_witness :
  1 <= len (validSigs (AddAll [mkCall [hB; hA] hA 1 1] s_BA)).
Proof.
  destruct (never_below_capacity_less_one [mkCall [hB; hA] hA 1 1] s_BA)
    as [Hlen _].
  - vm_compute. discriminate.
  - exact Hlen.
Defined.

(** X10, on a value with two bytes set. *)
Lemma Uint64_PutUint64_witness : Uint64 (PutUint64 258) = 258.
Proof. apply (Uint64_PutUint64 258). vm_compute. split; discriminate. Defined.

(** X11, on bit 0 together with bit 1. *)
Lemma ServiceFlag_String_shape_witness :
  ServiceFlag_String sfStrings 3 = "SFNodeNetwork|0x2".
Proof.
  apply (ServiceFlag_String_shape sfStrings 3); [reflexivity|].
  vm_compute. split; discriminate.
Defined.

(** X12, on bit 0 together with bit 1. *)
Lemma ServiceFlag_String_inj_witness :
  ServiceFlag_String sfStrings 3 = ServiceFlag_String sfStrings (2 + 1) /\
  3 = 2 + 1.
Proof.
  split; [reflexivity|].
  apply (ServiceFlag_String_inj sfStrings 3 (2 + 1));
    [reflexivity | vm_compute; split; discriminate
     | vm_compute; split; discriminate | reflexivity].
Defined.
